(** * Rational-function least-squares fit of the SampleNFW notebook

    A shallow embedding of [find_rational] (physics229/SampleNFW.ipynb) and
    of the evaluation [num(xx)/den(xx)] of the fitted function, with the
    properties the specification states about them.

    Numbers.  The notebook computes with NumPy [float64].  Here the fit is
    modelled in exact arithmetic: the scalars range over an arbitrary field
    [F] (an ordered one where an order is needed, and the rationals at
    concrete inputs).  Rounding is not modelled; the two IEEE results of a
    division by zero are, since the evaluation relies on them. *)

From HB Require Import structures.
From mathcomp Require Import boot order algebra.

Set Implicit Arguments.
Unset Strict Implicit.
Unset Printing Implicit Defensive.

Import Order.TTheory GRing.Theory Num.Theory.
Local Open Scope ring_scope.

(** ** Exceptions and results *)

(** The exceptions [find_rational] can raise: [ValueError] from [np.zeros]
    on a negative dimension and from [np.dot] on misaligned shapes,
    [IndexError] from [fxi[i]] past the end, [LinAlgError] from
    [np.linalg.inv] on a singular matrix. *)
Inductive exn : Type := ValueError | IndexError | LinAlgError.

Inductive result (T : Type) : Type :=
  | Ok of T
  | Raise of exn.

Arguments Ok {T} _.
Arguments Raise {T} _.


Definition raises (T : Type) (r : result T) : bool :=
  if r is Raise _ then true else false.

(** ** Python sequences *)

Section PySeq.

Variable T : Type.

(** A slice bound [k] on a sequence of length [len]: a negative bound counts
    from the end, and both kinds are clipped to [0 .. len]. *)
Definition slice_bound (len : nat) (k : int) : nat :=
  match k with
  | Posz p => minn p len
  | Negz p => (len - p.+1)%N
  end.

(** [s[:k]] *)
Definition slice_to (k : int) (s : seq T) : seq T :=
  take (slice_bound (size s) k) s.

(** [s[k:]] *)
Definition slice_from (k : int) (s : seq T) : seq T :=
  drop (slice_bound (size s) k) s.

(** [range(k)] *)
Definition range (k : int) : seq nat :=
  if k is Posz p then iota 0 p else [::].

End PySeq.

(** ** NumPy values *)

Section NumPy.

Variable F : fieldType.

(** A one-dimensional array of length [m] is a row vector; [seq_of_rV] lists
    its entries, [rV_of_seq] reads a sequence as an array of length [n]. *)
Definition seq_of_rV (m : nat) (v : 'rV[F]_m) : seq F :=
  [seq v ord0 a | a <- enum 'I_m].

Definition rV_of_seq (n : nat) (s : seq F) : 'rV[F]_n :=
  \row_(i < n) s`_i.

(** [np.poly1d(c)]: the coefficients [c] come highest degree first, and
    leading zeros are dropped ([poly1d([])] is the zero polynomial).  A
    [{poly F}] is such a normalised coefficient list, lowest degree first;
    calling a [poly1d] is Horner evaluation, [p.[x]]. *)
Definition poly1d (c : seq F) : {poly F} := Poly (rev c).

(** The value of a [float64] division: a finite quotient, or what IEEE
    arithmetic gives for a zero divisor (NumPy warns and returns it):
    an infinity for a non-zero dividend, not-a-number for [0/0].  The sign
    of the infinity depends on the sign of the floating-point zero and is
    not tracked. *)
Inductive np_float : Type :=
  | Finite of F
  | Inf
  | NaN.

Definition np_div (a b : F) : np_float :=
  if b == 0 then (if a == 0 then NaN else Inf) else Finite (a / b).

End NumPy.

Arguments Inf {F}.
Arguments NaN {F}.

(** ** The fit *)

Section FindRational.

Variable F : fieldType.

Implicit Types (xi fxi : seq F) (A B : int) (m : nat).

(** [Nbase = A+B+1] *)
Definition Nbase A B : int := A + B + 1.

(** The double loop filling [phi]:
    [phi[i,a] = xi[i]**a if a<=A else (-fxi[i]*xi[i]**(a-A))]. *)
Definition phi_entry xi fxi A (i a : nat) : F :=
  if (a%:Z <= A) then xi`_i ^+ a else - fxi`_i * xi`_i ^+ `|a%:Z - A|.

Definition phi xi fxi A m : 'M[F]_(size xi, m) :=
  \matrix_(i < size xi, a < m) phi_entry xi fxi A i a.

(** [d = np.dot(fxi,phi)], for [fxi] as long as [xi]. *)
Definition source xi fxi A m : 'rV[F]_m :=
  rV_of_seq (size xi) fxi *m phi xi fxi A m.

(** [M = np.dot(phi.T,phi)] *)
Definition normal_matrix xi fxi A m : 'M[F]_m :=
  (phi xi fxi A m)^T *m phi xi fxi A m.

(** [c = np.dot(np.linalg.inv(M),d)], a one-dimensional array. *)
Definition coefficients xi fxi A m : 'rV[F]_m :=
  (invmx (normal_matrix xi fxi A m) *m (source xi fxi A m)^T)^T.

(** A fitted rational function: the pair [(num,den)]. *)
Definition RationalFunction : Type := ({poly F} * {poly F})%type.

Definition find_rational xi fxi A B : result RationalFunction :=
  let Ndata := size xi in
  (* np.zeros( (Ndata,Nbase) ) *)
  if Nbase A B < 0 then Raise ValueError else
  let m := `|Nbase A B|%N in
  (* fxi[i] in the else branch of the loop body *)
  if (size fxi < Ndata)%N && has (fun a : nat => A < a%:Z) (range (Nbase A B))
  then Raise IndexError else
  (* np.dot( fxi,phi ) *)
  if size fxi != Ndata then Raise ValueError else
  (* np.linalg.inv(M) *)
  if normal_matrix xi fxi A m \notin unitmx then Raise LinAlgError else
  let c := seq_of_rV (coefficients xi fxi A m) in
  let num := poly1d (rev (slice_to (A + 1) c)) in
  let den := poly1d (rcons (rev (slice_from (A + 1) c)) 1) in
  Ok (num, den).

(** The contract [fit(samples, A, B)] of the specification: a sample table
    is a sequence of pairs [(x_i, y_i)]; the notebook passes the two columns
    ([find_rational(Mx,rr,3,3)]). *)
Definition fit (samples : seq (F * F)) A B : result RationalFunction :=
  find_rational (unzip1 samples) (unzip2 samples) A B.

(** The contract [evaluate(fn, x)]: the notebook's [num(xx)/den(xx)], at a
    scalar and elementwise on an array; the result has the length of the
    query.  No step of it raises. *)
Definition rational_value (fn : RationalFunction) (x : F) : np_float F :=
  np_div fn.1.[x] fn.2.[x].

Definition evaluate (fn : RationalFunction) (x : F) : result (np_float F) :=
  Ok (rational_value fn x).

Definition evaluate_seq (fn : RationalFunction) (xx : seq F) :
    result (seq (np_float F)) :=
  Ok [seq rational_value fn x | x <- xx].

End FindRational.

(** ** The words of the specification *)

Section Specification.

Variable F : fieldType.



(** "Construct the target vector as y_i*x_i^B." *)
Definition spec_target (n : nat) (xi fxi : seq F) (B : nat) : 'rV[F]_n :=
  \row_(i < n) (fxi`_i * xi`_i ^+ B).

(** A table drawn exactly from the rational function [N/D]. *)
Definition lies_on (samples : seq (F * F)) (N D : {poly F}) : Prop :=
  forall p, p \in samples -> D.[p.1] != 0 /\ p.2 = N.[p.1] / D.[p.1].

(** The coefficient vector holding a polynomial [N] in its first [A+1]
    entries and a polynomial [Q] in the others. *)
Definition coef_row (A m : nat) (N Q : {poly F}) : 'rV[F]_m :=
  \row_(a < m) (if (a <= A)%N then N`_a else Q`_(a - A.+1)).

End Specification.

(** ** What the fit minimises *)

Section Residual.

Variable F : fieldType.


End Residual.

(** ** Rejection sampling *)

Section RejectionSampling.

Variable R : realFieldType.

(** The generator behind [np.random.uniform] is a hidden state; here it is
    the sequence of the numbers it will hand out, each call with [size=1]
    taking the next one. *)
Definition rng_state : Type := seq R.

(** The test [r < 4*x/(1+x)**2].  The quotient is a floating-point one: its
    divisor vanishes at [x = -1] only, where the dividend is [-4] and the
    quotient minus infinity, below every [r]; a comparison with
    not-a-number is false. *)
Definition accept (x r : R) : bool :=
  match np_div (4 * x) ((1 + x) ^+ 2) with
  | Finite q => r < q
  | Inf => false
  | NaN => false
  end.

(** [nfw(c)]: each turn of the [while True] loop draws [x] and then [r]; the
    first accepted turn returns [x[0]/c] and leaves the generator after its
    two draws.  [None]: the loop is still running when the recorded draws
    are used up. *)
Fixpoint nfw (c : R) (rng : rng_state) : option (np_float R * rng_state) :=
  match rng with
  | u :: r :: rng' =>
      let x := u * c in
      if accept x r then Some (np_div x c, rng') else nfw c rng'
  | _ => None
  end.


(** What [np.random.uniform] hands out: numbers of [[0, 1)]. *)
Definition uniform_draws (rng : rng_state) : bool :=
  all (fun u => 0 <= u < 1) rng.


End RejectionSampling.

(** ** Sequences, slices and [poly1d] *)

Section Basics.

Variable F : fieldType.

Implicit Types (xi fxi c : seq F) (A B : int) (m : nat).

Lemma size_seq_of_rV m (v : 'rV[F]_m) : size (seq_of_rV v) = m.
Proof. by rewrite /seq_of_rV size_map size_enum_ord. Qed.

Lemma nth_seq_of_rV m (v : 'rV[F]_m) (a : 'I_m) : (seq_of_rV v)`_a = v ord0 a.
Proof.
rewrite /seq_of_rV (nth_map a) ?size_enum_ord //.
by rewrite nth_ord_enum.
Qed.

Lemma slice_bound_nat (len k : nat) : slice_bound len k%:Z = minn k len.
Proof. by []. Qed.

Lemma slice_to_nat (k : nat) c : slice_to k%:Z c = take k c.
Proof.
rewrite /slice_to slice_bound_nat /minn; case: ltnP => // le_ck.
by rewrite take_size take_oversize.
Qed.

Lemma slice_from_nat (k : nat) c : slice_from k%:Z c = drop k c.
Proof.
rewrite /slice_from slice_bound_nat /minn; case: ltnP => // le_ck.
by rewrite drop_size drop_oversize.
Qed.

(** [np.poly1d(c[::-1])] has the entries of [c] as its coefficients, lowest
    degree first; [np.append(c[::-1],1.0)] puts the one at degree zero. *)
Lemma poly1d_rev c : poly1d (rev c) = Poly c.
Proof. by rewrite /poly1d revK. Qed.

Lemma poly1d_rcons_rev c : poly1d (rcons (rev c) 1) = Poly (1 :: c).
Proof. by rewrite /poly1d rev_rcons revK. Qed.

Lemma NbaseE (A B : nat) : Nbase A%:Z B%:Z = (A + B + 1)%N%:Z.
Proof. by rewrite /Nbase -!PoszD. Qed.

Lemma abs_Nbase (A B : nat) : `|Nbase A%:Z B%:Z|%N = (A + B + 1)%N.
Proof. by rewrite NbaseE. Qed.

(** [find_rational] on columns of equal length: the only exceptions left are
    those of [np.zeros] and [np.linalg.inv]. *)
Lemma find_rationalE xi fxi A B :
  size fxi = size xi ->
  find_rational xi fxi A B =
    if Nbase A B < 0 then Raise ValueError else
    if normal_matrix xi fxi A `|Nbase A B| \notin unitmx then Raise LinAlgError
    else let c := seq_of_rV (coefficients xi fxi A `|Nbase A B|) in
         Ok (Poly (slice_to (A + 1) c), Poly (1 :: slice_from (A + 1) c)).
Proof.
move=> eq_sz; rewrite /find_rational eq_sz ltnn eqxx /=.
by rewrite poly1d_rev poly1d_rcons_rev.
Qed.

(** Columns of different lengths: the loop or [np.dot] raises. *)
Lemma find_rational_mismatch xi fxi A B :
  size fxi != size xi -> raises (find_rational xi fxi A B).
Proof.
move=> neq_sz; rewrite /find_rational (negPf neq_sz).
by do 2![case: ifP => // _].
Qed.

Lemma size_unzip (samples : seq (F * F)) :
  size (unzip2 samples) = size (unzip1 samples).
Proof. by rewrite !size_map. Qed.

Lemma fitE (samples : seq (F * F)) A B :
  let xi := unzip1 samples in
  let fxi := unzip2 samples in
  fit samples A B =
    if Nbase A B < 0 then Raise ValueError else
    if normal_matrix xi fxi A `|Nbase A B| \notin unitmx then Raise LinAlgError
    else let c := seq_of_rV (coefficients xi fxi A `|Nbase A B|) in
         Ok (Poly (slice_to (A + 1) c), Poly (1 :: slice_from (A + 1) c)).
Proof. by rewrite /fit find_rationalE ?size_unzip. Qed.

End Basics.

(** ** The least-squares system *)

Section NormalEquations.

Variable F : fieldType.

Variables (xi fxi : seq F) (A : int) (m : nat).

Let Phi := phi xi fxi A m.
Let M := normal_matrix xi fxi A m.
Let y : 'cV[F]_(size xi) := (rV_of_seq (size xi) fxi)^T.

Lemma rV_of_seq_tr n (s : seq F) : (rV_of_seq n s)^T = \col_i s`_i.
Proof. by apply/matrixP => i j; rewrite !mxE. Qed.

Lemma source_tr : (source xi fxi A m)^T = Phi^T *m y.
Proof.
by rewrite /source trmx_mul.
Qed.

(** The coefficients solve [M c = Phi^T y]: the right-hand side of the
    system is built from the ordinates [fxi] themselves. *)
Lemma normal_equations :
  M \in unitmx -> M *m (coefficients xi fxi A m)^T = Phi^T *m y.
Proof.
by move=> uM; rewrite /coefficients trmxK mulKVmx // source_tr.
Qed.

(** Data that a coefficient vector [v] reproduces exactly gives [v] back. *)
Lemma coefficients_exact (v : 'rV[F]_m) :
  M \in unitmx -> Phi *m v^T = y -> coefficients xi fxi A m = v.
Proof.
move=> uM eq_y; apply: trmx_inj.
rewrite /coefficients trmxK source_tr -eq_y (mulmxA Phi^T).
by rewrite -/(normal_matrix xi fxi A m) mulKmx.
Qed.


(** As many rows as columns: a solution of the normal equations solves the
    system itself. *)
Lemma square_system :
  size xi = m -> M \in unitmx -> Phi *m (coefficients xi fxi A m)^T = y.
Proof.
move=> eq_nm uM.
have rkPhi : \rank Phi = size xi.
  apply/eqP; rewrite eqn_leq rank_leq_row /=.
  have rkM : \rank M = m by apply/eqP; rewrite -/(row_full M) row_full_unit.
  have le_nm : (size xi <= m)%N by rewrite eq_nm.
  by apply: leq_trans le_nm _; rewrite -[X in (X <= _)%N]rkM mxrankM_maxr.
have /row_freeP [P PhiP] : row_free Phi by rewrite /row_free rkPhi.
set c := coefficients xi fxi A m.
have: (Phi *m c^T - y)^T *m Phi = 0.
  apply: trmx_inj; rewrite trmx_mul trmxK trmx0 mulmxBr mulmxA.
  by rewrite -/M normal_equations // subrr.
move/(congr1 (mulmx^~ P)); rewrite -mulmxA PhiP mulmx1 mul0mx.
by move/(congr1 trmx); rewrite trmxK trmx0 => /eqP; rewrite subr_eq0 => /eqP.
Qed.

End NormalEquations.

(** ** The system in terms of the two polynomials *)

Section Polynomials.

Variable F : fieldType.

Implicit Types (xi fxi s : seq F) (A B : nat) (x : F).

(** Horner evaluation of [Poly s] as the coefficient-weighted sum. *)
Lemma horner_PolyE s x :
  (Poly s).[x] = \sum_(0 <= a < size s) s`_a * x ^+ a.
Proof.
rewrite (horner_coef_wide x (size_Poly s)) big_mkord.
by apply: eq_bigr => a _; rewrite coef_Poly.
Qed.

(** One row of [phi] against a coefficient list [s]: the numerator part
    [s[:A+1]] minus [fxi[i]] times the denominator part [s[A+1:]], the latter
    starting at degree one. *)
Lemma phi_row_dot xi fxi A (i : nat) s :
  (A < size s)%N ->
  \sum_(0 <= a < size s) phi_entry xi fxi A%:Z i a * s`_a =
    (Poly (take A.+1 s)).[xi`_i]
    - fxi`_i * (xi`_i * (Poly (drop A.+1 s)).[xi`_i]).
Proof.
move=> ltAs; rewrite (@big_cat_nat _ _ _ A.+1) //=; congr (_ + _).
  rewrite horner_PolyE size_takel //.
  rewrite !big_nat; apply: eq_bigr => a /andP[_ ltaA].
  by rewrite /phi_entry lez_nat -ltnS ltaA nth_take // mulrC.
rewrite horner_PolyE size_drop -{1}[A.+1]add0n big_addn.
rewrite !mulr_sumr -sumrN; apply: eq_bigr => b _.
have -> : phi_entry xi fxi A%:Z i (b + A.+1) = - fxi`_i * xi`_i ^+ b.+1.
  rewrite /phi_entry lez_nat addnS ltnNge leq_addl /=.
  by rewrite -addSn PoszD addrK absz_nat.
rewrite nth_drop [(A.+1 + b)%N]addnC exprS !mulNr.
by rewrite -!mulrA [s`__ * _]mulrC.
Qed.

(** The same for the matrix product: row [i] of [phi] times a coefficient
    vector. *)
Lemma phi_mulE xi fxi A m (v : 'rV[F]_m) (i : 'I_(size xi)) :
  (A < m)%N ->
  (phi xi fxi A%:Z m *m v^T) i ord0 =
    (Poly (take A.+1 (seq_of_rV v))).[xi`_i]
    - fxi`_i * (xi`_i * (Poly (drop A.+1 (seq_of_rV v))).[xi`_i]).
Proof.
move=> ltAm; rewrite -phi_row_dot ?size_seq_of_rV // big_mkord mxE.
by apply: eq_bigr => a _; rewrite !mxE nth_seq_of_rV.
Qed.

(** The residual of sample [i] for the rational function read off a
    coefficient vector. *)
Lemma phi_mul_residual xi fxi A m (v : 'rV[F]_m) (i : 'I_(size xi)) :
  (A < m)%N ->
  let N := Poly (take A.+1 (seq_of_rV v)) in
  let D := Poly (1 :: drop A.+1 (seq_of_rV v)) in
  (phi xi fxi A%:Z m *m v^T) i ord0 - fxi`_i = N.[xi`_i] - fxi`_i * D.[xi`_i].
Proof.
move=> ltAm /=; rewrite phi_mulE // horner_cons mulrDr mulr1 opprD addrA.
by rewrite [_ * xi`_i]mulrC.
Qed.

(** [fit] at non-negative degrees. *)
Lemma fit_nat (samples : seq (F * F)) A B :
  let xi := unzip1 samples in
  let fxi := unzip2 samples in
  let m := `|Nbase A%:Z B%:Z|%N in
  fit samples A%:Z B%:Z =
    if normal_matrix xi fxi A%:Z m \notin unitmx then Raise LinAlgError
    else let c := seq_of_rV (coefficients xi fxi A%:Z m) in
         Ok (Poly (take A.+1 c), Poly (1 :: drop A.+1 c)).
Proof.
rewrite /= fitE NbaseE /= -[A%:Z + 1]/((A + 1)%N%:Z).
by rewrite slice_to_nat slice_from_nat !addn1.
Qed.

Lemma ltn_Nbase A B : (A < `|Nbase A%:Z B%:Z|)%N.
Proof. by rewrite abs_Nbase addn1 ltnS leq_addr. Qed.

End Polynomials.

(** ** Coefficient vectors of given polynomials *)

Section CoefRow.

Variable F : fieldType.

Implicit Types (N Q D : {poly F}) (A B m : nat).

Lemma take_coef_row A m N Q :
  (size N <= A.+1)%N -> (A < m)%N ->
  Poly (take A.+1 (seq_of_rV (coef_row A m N Q))) = N.
Proof.
move=> leN ltAm; apply/polyP => k; rewrite coef_Poly.
case: (ltnP k A.+1) => [ltkA | lekA].
  rewrite nth_take // (nth_seq_of_rV _ (Ordinal (leq_trans ltkA ltAm))).
  by rewrite mxE /= -ltnS ltkA.
rewrite !nth_default //; last exact: leq_trans leN lekA.
by rewrite size_takel ?size_seq_of_rV.
Qed.

Lemma drop_coef_row A m N Q :
  (size Q + A.+1 <= m)%N ->
  Poly (drop A.+1 (seq_of_rV (coef_row A m N Q))) = Q.
Proof.
move=> leQ; apply/polyP => k; rewrite coef_Poly nth_drop.
case: (ltnP (A.+1 + k) m) => [ltkm | lemk].
  rewrite (nth_seq_of_rV _ (Ordinal ltkm)) mxE /=.
  by rewrite leqNgt ltnS leq_addr /= addKn.
rewrite !nth_default ?size_seq_of_rV //.
by rewrite -(leq_add2r A.+1) [(k + _)%N]addnC; apply: leq_trans leQ lemk.
Qed.

(** A coefficient vector is the [coef_row] of the polynomials read off it. *)
Lemma coef_row_seq A m (v : 'rV[F]_m) :
  coef_row A m (Poly (take A.+1 (seq_of_rV v)))
               (Poly (drop A.+1 (seq_of_rV v))) = v.
Proof.
apply/rowP => a; rewrite mxE !coef_Poly -nth_seq_of_rV.
case: leqP => [leaA | ltAa]; first by rewrite nth_take.
by rewrite nth_drop subnKC.
Qed.

End CoefRow.

(** ** Fitting at non-negative degrees *)

Section FitTheory.

Variable F : fieldType.

Variables (samples : seq (F * F)) (A B : nat).

Implicit Types (N D P Q : {poly F}) (p : F * F).

Let xi := unzip1 samples.
Let fxi := unzip2 samples.
Let m := `|Nbase A%:Z B%:Z|%N.
Let Phi := phi xi fxi A%:Z m.
Let M := normal_matrix xi fxi A%:Z m.

Lemma sample_row (i : 'I_(size xi)) : (xi`_i, fxi`_i) \in samples.
Proof.
have lti : (i < size samples)%N by rewrite -(size_map fst).
rewrite /xi /fxi /unzip1 /unzip2 !(nth_map (0, 0)) // -surjective_pairing.
exact: mem_nth.
Qed.

Lemma row_sample p :
  p \in samples -> exists i : 'I_(size xi), xi`_i = p.1 /\ fxi`_i = p.2.
Proof.
move=> p_in; have lti : (index p samples < size xi)%N.
  by rewrite size_map index_mem.
exists (Ordinal lti); rewrite /xi /fxi /unzip1 /unzip2 /=.
by rewrite !(nth_map (0, 0)) ?index_mem // nth_index.
Qed.

(** A coefficient vector is in the kernel of [phi] exactly when its
    numerator part agrees, on the table, with the ordinate times its
    denominator part. *)
Lemma phi_kernelP (v : 'rV[F]_m) :
  let P := Poly (take A.+1 (seq_of_rV v)) in
  let Q := Poly (drop A.+1 (seq_of_rV v)) in
  Phi *m v^T = 0 <->
  (forall p, p \in samples -> P.[p.1] = p.2 * (p.1 * Q.[p.1])).
Proof.
split=> [Phiv p /row_sample[i [<- <-]] | fitP].
  apply/eqP; rewrite -subr_eq0 -phi_mulE ?ltn_Nbase //.
  by rewrite -/xi -/fxi -/m -/Phi Phiv mxE.
apply/colP => i; rewrite phi_mulE ?ltn_Nbase // mxE.
by apply/eqP; rewrite subr_eq0; apply/eqP/(fitP _ (sample_row i)).
Qed.

(** It reproduces the ordinates exactly when the rational function read off
    it does, in the cross-multiplied form [y * D(x) = N(x)]. *)
Lemma phi_exactP (v : 'rV[F]_m) :
  let N := Poly (take A.+1 (seq_of_rV v)) in
  let D := Poly (1 :: drop A.+1 (seq_of_rV v)) in
  Phi *m v^T = (rV_of_seq (size xi) fxi)^T <->
  (forall p, p \in samples -> p.2 * D.[p.1] = N.[p.1]).
Proof.
split=> [Phiv p /row_sample[i [<- <-]] | fitP].
  apply/esym/eqP; rewrite -subr_eq0 -phi_mul_residual ?ltn_Nbase //.
  by rewrite -/xi -/fxi -/m -/Phi Phiv !mxE subrr.
apply/colP => i; apply/eqP; rewrite rV_of_seq_tr [in X in _ == X]mxE.
rewrite -subr_eq0.
rewrite phi_mul_residual ?ltn_Nbase // subr_eq0; apply/eqP/esym.
exact: (fitP _ (sample_row i)).
Qed.

(** Exact data: when the table lies on [N/D], with [D] of constant
    coefficient one, and the system is regular, [fit] returns [N] and [D]. *)
Lemma fit_exact N D :
  (size N <= A.+1)%N -> (size D <= B.+1)%N -> D`_0 = 1 ->
  (forall p, p \in samples -> p.2 * D.[p.1] = N.[p.1]) ->
  M \in unitmx ->
  fit samples A%:Z B%:Z = Ok (N, D).
Proof.
move=> leN leD D0 onND uM; rewrite fit_nat -/xi -/fxi -/m -/M uM /=.
pose Q : {poly F} := \poly_(j < B) D`_j.+1.
pose v := coef_row A m N Q.
have ltAm : (A < m)%N by apply: ltn_Nbase.
have leQ : (size Q + A.+1 <= m)%N.
  rewrite /m abs_Nbase addn1 -addSn addnC leq_add2l.
  exact: size_poly.
have vN : Poly (take A.+1 (seq_of_rV v)) = N by apply: take_coef_row.
have vD : Poly (1 :: drop A.+1 (seq_of_rV v)) = D.
  rewrite /= drop_coef_row //; apply/polyP => -[|k]; rewrite coef_cons ?D0 //.
  rewrite coef_poly; case: ltnP => // leBk.
  by rewrite nth_default // (leq_trans leD).
have -> : coefficients xi fxi A%:Z m = v.
  by apply: coefficients_exact => //; apply/phi_exactP; rewrite vN vD.
by rewrite vN -[cons_poly _ _]/(Poly (1 :: _)) vD.
Qed.

(** A non-trivial pair in the kernel makes the system singular. *)
Lemma fit_singular_kernel P Q :
  (size P <= A.+1)%N -> (size Q <= B)%N -> (P != 0) || (Q != 0) ->
  (forall p, p \in samples -> P.[p.1] = p.2 * (p.1 * Q.[p.1])) ->
  fit samples A%:Z B%:Z = Raise LinAlgError.
Proof.
move=> leP leQ nz0 kerPQ; rewrite fit_nat -/xi -/fxi -/m -/M.
case: ifPn => //; rewrite negbK => uM.
pose v := coef_row A m P Q.
have ltAm : (A < m)%N by apply: ltn_Nbase.
have leQm : (size Q + A.+1 <= m)%N.
  by rewrite /m abs_Nbase addn1 -addSn addnC leq_add2l.
have vP : Poly (take A.+1 (seq_of_rV v)) = P by apply: take_coef_row.
have vQ : Poly (drop A.+1 (seq_of_rV v)) = Q by apply: drop_coef_row.
have Phiv : Phi *m v^T = 0 by apply/phi_kernelP; rewrite vP vQ.
have v0 : v = 0.
  apply: trmx_inj; rewrite trmx0 -[LHS](mulKmx uM) /M /normal_matrix.
  by rewrite -mulmxA -/Phi Phiv !mulmx0.
move: nz0; rewrite -vP -vQ v0.
have -> : seq_of_rV (0 : 'rV[F]_m) = nseq m 0.
  apply: (@eq_from_nth _ 0); rewrite size_seq_of_rV ?size_nseq // => a lta.
  by rewrite (nth_seq_of_rV _ (Ordinal lta)) mxE nth_nseq lta.
have Poly0 k : Poly (nseq k (0 : F)) = 0.
  by apply/polyP => j; rewrite coef_Poly nth_nseq if_same coef0.
by rewrite take_nseq ?drop_nseq ?Poly0 ?eqxx.
Qed.

End FitTheory.

(** ** Regular systems over an ordered field *)

Section Regular.

Variable R : realFieldType.

(** Over an ordered field a Gram matrix is invertible as soon as the matrix
    has a trivial kernel. *)
Lemma gram_unit n m (Phi : 'M[R]_(n, m)) :
  (forall v : 'rV[R]_m, Phi *m v^T = 0 -> v = 0) ->
  Phi^T *m Phi \in unitmx.
Proof.
move=> kerPhi; rewrite -row_free_unit -kermx_eq0.
apply/eqP/row_matrixP => i; rewrite row0.
set w := row i _; apply: kerPhi.
have wM : w *m (Phi^T *m Phi) = 0 by rewrite /w -row_mul mulmx_ker row0.
set u := Phi *m w^T.
have: u^T *m u = 0.
  by rewrite /u trmx_mul trmxK mulmxA -(mulmxA w) wM mul0mx.
move/matrixP/(_ ord0 ord0); rewrite !mxE => /eqP.
rewrite psumr_eq0 => [j _ | /allP sq0]; first by rewrite mxE -expr2 sqr_ge0.
apply/colP => j; have := sq0 j (mem_index_enum _).
by rewrite !mxE /= mulf_eq0 orbb => /eqP.
Qed.

Variables (samples : seq (R * R)) (A B : nat).

Let xi := unzip1 samples.
Let fxi := unzip2 samples.
Let m := `|Nbase A%:Z B%:Z|%N.

(** The system of [fit] is regular when no non-trivial pair of polynomials
    of the fitted degrees satisfies the homogeneous relation on the table. *)
Lemma fit_regular :
  (forall P Q : {poly R}, (size P <= A.+1)%N -> (size Q <= B)%N ->
     (forall p, p \in samples -> P.[p.1] = p.2 * (p.1 * Q.[p.1])) ->
     P = 0 /\ Q = 0) ->
  normal_matrix xi fxi A%:Z m \in unitmx.
Proof.
move=> trivPQ; apply: gram_unit => v /phi_kernelP kerv.
have [||P0 Q0] := trivPQ _ _ _ _ kerv.
- apply: leq_trans (size_Poly _) _; rewrite size_take.
  by case: ifP => // /negbT; rewrite -leqNgt.
- apply: leq_trans (size_Poly _) _.
  by rewrite size_drop size_seq_of_rV abs_Nbase addn1 subSS addKn.
rewrite -(coef_row_seq A v) P0 Q0.
by apply/rowP => a; rewrite !mxE !coef0 if_same.
Qed.

End Regular.

Section RegularCases.

Variable R : realFieldType.

(** A polynomial fit ([B = 0]) on distinct abscissae, at least [A+1] of
    them, is regular. *)
Lemma polynomial_fit_regular (samples : seq (R * R)) (A : nat) :
  uniq (unzip1 samples) -> (A < size samples)%N ->
  normal_matrix (unzip1 samples) (unzip2 samples) A%:Z `|Nbase A%:Z 0| 
    \in unitmx.
Proof.
move=> uniq_x ltAn; apply: (@fit_regular _ samples A 0) => P Q leP.
rewrite size_poly_leq0 => /eqP-> kerP; split=> //.
apply: (@roots_geq_poly_eq0 _ P (unzip1 samples)) => //; last first.
  by rewrite size_map (leq_trans leP).
apply/allP => x /mapP[p p_in ->]; apply/rootP.
by rewrite (kerP _ p_in) horner0 !mulr0.
Qed.

(** Two points fitted by a constant over a linear denominator
    ([A = 0], [B = 1]): regular when the products [x*y] differ. *)
Lemma two_point_fit_regular (p1 p2 : R * R) :
  p1.1 * p1.2 != p2.1 * p2.2 ->
  normal_matrix (unzip1 [:: p1; p2]) (unzip2 [:: p1; p2]) 0 `|Nbase 0 1| 
    \in unitmx.
Proof.
move=> neq12; apply: (@fit_regular _ [:: p1; p2] 0 1) => P Q leP leQ kerPQ.
have := kerPQ p1; have := kerPQ p2; rewrite !inE !eqxx orbT /=.
rewrite (size1_polyC leP) (size1_polyC leQ) !hornerC => /(_ isT) eq2 /(_ isT) eq1.
have /eqP : (p1.1 * p1.2 - p2.1 * p2.2) * Q`_0 = 0.
  by rewrite mulrBl [p1.1 * _]mulrC [p2.1 * _]mulrC -!mulrA -eq1 -eq2 subrr.
rewrite mulf_eq0 subr_eq0 (negPf neq12) /= => /eqP Q0.
by rewrite eq2 Q0 !mulr0 polyC0.
Qed.

(** Exact data, in general: at least [A+B+1] distinct abscissae on [N/D]
    in lowest terms, with [D(0) = 1] and one of the two degrees attained,
    make the system regular. *)
Lemma exact_data_regular (samples : seq (R * R)) (A B : nat) (N D : {poly R}) :
  uniq (unzip1 samples) -> (A + B + 1 <= size samples)%N ->
  (size N <= A.+1)%N -> (size D <= B.+1)%N -> D`_0 = 1 ->
  coprimep N D -> (size N == A.+1) || (size D == B.+1) ->
  lies_on samples N D ->
  normal_matrix (unzip1 samples) (unzip2 samples) A%:Z `|Nbase A%:Z B%:Z| 
    \in unitmx.
Proof.
move=> uniq_x le_n leN leD D0 coND degND onND.
apply: (@fit_regular _ samples A B) => P Q leP leQ kerPQ.
have nzD : D != 0 by apply/eqP => D_0; move: D0; rewrite D_0 coef0 => /eqP;
  rewrite eq_sym oner_eq0.
have eqPD : P * D = N * 'X * Q.
  apply/eqP; rewrite -subr_eq0; apply/eqP.
  apply: (@roots_geq_poly_eq0 _ _ (unzip1 samples)) => //.
    apply/allP => x /mapP[p p_in ->]; apply/rootP.
    have [nzDx yE] := onND p p_in.
    rewrite hornerD hornerN !hornerM hornerX (kerPQ p p_in) yE.
    by rewrite mulrAC divfK // mulrA subrr.
  have le_pred (a b c d : nat) :
      (a <= c)%N -> (b <= d)%N -> ((a + b).-1 <= (c + d).-1)%N.
    by move=> le_ac le_bd; rewrite -!subn1 leq_sub2r // leq_add.
  rewrite size_map; apply: leq_trans le_n.
  apply: leq_trans (size_polyD _ _) _; rewrite size_polyN geq_max.
  apply/andP; split; apply: leq_trans (size_polyMleq _ _) _.
    by apply: leq_trans (le_pred _ _ _ _ leP leD) _; rewrite addnS addSn addn1.
  have leNX : (size (N * 'X)%R <= A.+2)%N.
    apply: leq_trans (size_polyMleq _ _) _; rewrite size_polyX.
    by rewrite addn2.
  by apply: leq_trans (le_pred _ _ _ _ leNX leQ) _; rewrite !addSn addn1.
have coDX : coprimep D 'X.
  by rewrite -['X]subr0 -polyC0 coprimep_XsubC rootE horner_coef0 D0 oner_eq0.
have dvdDQ : D %| Q.
  rewrite -(Gauss_dvdpr _ coDX) -(Gauss_dvdpr _ (_ : coprimep D N)).
    by rewrite coprimep_sym.
  by rewrite mulrA -eqPD dvdp_mulIr.
have [Q0 | nzQ] := eqVneq Q 0.
  split=> //; move/eqP: eqPD; rewrite Q0 mulr0 mulf_eq0 (negPf nzD) orbF.
  by move/eqP.
have ltD : (size D <= B)%N := leq_trans (dvdp_leq nzQ dvdDQ) leQ.
have sizeN : size N = A.+1.
  by case/orP: degND => /eqP // sizeD; move: ltD; rewrite sizeD ltnn.
have nzN : N != 0 by rewrite -size_poly_eq0 sizeN.
have nzS : Q %/ D != 0.
  by apply: contraNneq nzQ => S0; rewrite -(divpK dvdDQ) S0 mul0r.
have eqP : P = N * 'X * (Q %/ D).
  apply: (mulIf nzD); rewrite eqPD -[in LHS](divpK dvdDQ).
  by rewrite !mulrA.
move: leP; rewrite eqP size_mul ?mulf_neq0 ?polyX_eq0 // size_mulX // sizeN.
have /prednK<- : (0 < size (Q %/ D)%R)%N by rewrite size_poly_gt0.
by rewrite addnS /= ltnNge leq_addr.
Qed.

End RegularCases.

(** ** Worked tables over the rationals *)

Section Tables.

Local Notation Q := rat.

(** Membership in a two-row table, row by row. *)
Lemma forall_table2 (P : Q * Q -> Prop) (p1 p2 : Q * Q) :
  P p1 -> P p2 -> forall p, p \in [:: p1; p2] -> P p.
Proof. by move=> P1 P2 p; rewrite !inE => /orP[] /eqP->. Qed.

(** The table [(0,3), (1,1)] lies on [3/(1+2x)]. *)
Lemma fit_table_lead2 :
  fit [:: (0, 3); (1, 1)] 0 1 = Ok (3%:P, Poly [:: 1; 2])
    :> result (RationalFunction Q).
Proof.
apply: (@fit_exact _ _ 0 1).
- exact: size_polyC_leq1.
- exact: size_Poly.
- by rewrite coef_Poly.
- by apply: forall_table2; rewrite hornerC horner_Poly /=; apply/eqP.
- exact: (@two_point_fit_regular _ (0, 3) (1, 1)).
Qed.

(** The table [(0,-1), (2,1)] lies on [1/(x-1)], that is on [-1/(1-x)]. *)
Lemma fit_table_monic :
  fit [:: (0, -1); (2, 1)] 0 1 = Ok ((-1)%:P, Poly [:: 1; -1])
    :> result (RationalFunction Q).
Proof.
apply: (@fit_exact _ _ 0 1).
- exact: size_polyC_leq1.
- exact: size_Poly.
- by rewrite coef_Poly.
- by apply: forall_table2; rewrite hornerC horner_Poly /=; apply/eqP.
- exact: (@two_point_fit_regular _ (0, -1) (2, 1)).
Qed.

(** The table [(0,1), (1,1), (2,1)] of the constant [1 = 1/1], fitted with
    [A = 1] and [B = 1]: the columns [x] and [-y*x] of [phi] are opposite,
    so that the pair [(x, 1)] is in the kernel. *)
Lemma fit_table_constant :
  fit [:: (0, 1); (1, 1); (2, 1)] 1 1 = Raise LinAlgError
    :> result (RationalFunction Q).
Proof.
apply: (@fit_singular_kernel _ _ 1 1 'X 1).
- by rewrite size_polyX.
- by rewrite size_poly1.
- by rewrite oner_eq0 orbT.
- move=> p; rewrite !inE => /or3P[] /eqP->;
    by rewrite hornerX hornerC /=; apply/eqP.
Qed.

(** The table [(1,1), (2,0)]: the fitted function is [0/(1-x)]. *)
Lemma fit_table_pole :
  fit [:: (1, 1); (2, 0)] 0 1 = Ok (0, Poly [:: 1; -1])
    :> result (RationalFunction Q).
Proof.
apply: (@fit_exact _ _ 0 1).
- by rewrite size_poly0.
- exact: size_Poly.
- by rewrite coef_Poly.
- by apply: forall_table2; rewrite horner0 horner_Poly /=; apply/eqP.
- exact: (@two_point_fit_regular _ (1, 1) (2, 0)).
Qed.

(** The table of [x^2+1] at [0, 1, 2, 3], fitted by a quadratic. *)
Lemma fit_table_parabola :
  fit [:: (0, 1); (1, 2); (2, 5); (3, 10)] 2 0 = Ok (Poly [:: 1; 0; 1], 1)
    :> result (RationalFunction Q).
Proof.
apply: (@fit_exact _ _ 2 0).
- exact: size_Poly.
- by rewrite size_poly1.
- by rewrite coef1.
- move=> p; rewrite !inE => /or4P[] /eqP->;
    by rewrite hornerC horner_Poly /=; apply/eqP.
- exact: (@polynomial_fit_regular _ [:: (0, 1); (1, 2); (2, 5); (3, 10)] 2).
Qed.

End Tables.

(** ** Negative degrees *)

Section NegativeDegrees.

Variable F : fieldType.



(** No basis function at all ([A+B+1 = 0]): the matrices are empty, the
    inverse of the empty matrix is empty, and the result is [0/1]. *)
Lemma fit_empty_basis (samples : seq (F * F)) (A B : int) :
  Nbase A B = 0 -> fit samples A B = Ok (0, 1).
Proof.
move=> Nbase0; rewrite fitE Nbase0 ltxx /=.
rewrite unitmxE det_mx00 unitr1 /=.
set c := seq_of_rV _; have -> : c = [::].
  by apply: size0nil; rewrite size_seq_of_rV.
by rewrite /slice_to /slice_from /= cons_poly_def mul0r add0r.
Qed.

End NegativeDegrees.

Section NegativeTables.

Local Notation Q := rat.



End NegativeTables.

(** ** The denominator's normalisation *)

Section Normalisation.

Variable F : fieldType.

(** What [fit] returns, at non-negative degrees: the system was regular and
    the two polynomials are read off the coefficient vector. *)
Lemma fit_Ok (samples : seq (F * F)) (A B : nat) fn :
  fit samples A%:Z B%:Z = Ok fn ->
  let xi := unzip1 samples in
  let fxi := unzip2 samples in
  let m := `|Nbase A%:Z B%:Z|%N in
  let c := seq_of_rV (coefficients xi fxi A%:Z m) in
  normal_matrix xi fxi A%:Z m \in unitmx /\
  fn = (Poly (take A.+1 c), Poly (1 :: drop A.+1 c)).
Proof.
by rewrite fit_nat /=; case: ifPn => // /negbNE uM [<-].
Qed.

(** Claim C10.  Whenever [fit] returns, at degrees [A >= 0] and [B >= 0],
    the denominator it returns has constant coefficient exactly one, so
    that [D(0) = 1] whatever the table. *)
Theorem fit_denominator_at_zero (samples : seq (F * F)) (A B : int) fn :
  0 <= A -> 0 <= B -> fit samples A B = Ok fn ->
  fn.2`_0 = 1 /\ fn.2.[0] = 1.
Proof.
move=> _ _; rewrite fitE; case: ifP => // _; case: ifP => // _ [<-] /=.
by rewrite horner_coef0 coef_cons.
Qed.

(** Claim C1, as amended.  At degrees [A >= 0] and [B >= 1] the denominator
    [fit] returns is [1 + d_1 x + ... + d_B x^B], where [d_1 .. d_B] are the
    last [B] entries of the coefficient vector: its constant coefficient is
    the one fixed to one.  The coefficient vector solves the normal
    equations whose right-hand side is built from the target [y_i]. *)
Theorem fit_denominator_constant_one (samples : seq (F * F)) (A B : nat) fn :
  (0 < B)%N -> fit samples A%:Z B%:Z = Ok fn ->
  let xi := unzip1 samples in
  let fxi := unzip2 samples in
  let m := `|Nbase A%:Z B%:Z|%N in
  let c := coefficients xi fxi A%:Z m in
  [/\ fn.2 = Poly (1 :: drop A.+1 (seq_of_rV c)),
      size (drop A.+1 (seq_of_rV c)) = B,
      fn.2`_0 = 1,
      forall b, (0 < b <= B)%N -> fn.2`_b = (seq_of_rV c)`_(A + b)
    & normal_matrix xi fxi A%:Z m *m c^T
      = (phi xi fxi A%:Z m)^T *m (rV_of_seq (size xi) fxi)^T].
Proof.
move=> _ /fit_Ok /= [uM ->] /=; split=> //.
- by rewrite size_drop size_seq_of_rV addn1 subSS addKn.
- by rewrite coef_cons.
- case=> [|b] // _; rewrite coef_cons coef_Poly nth_drop.
  by rewrite addSnnS.
- exact: normal_equations.
Qed.

End Normalisation.

(** Claim C1, witness: the table [(0,3), (1,1)] at [A = 0], [B = 1]. *)
Lemma fit_denominator_constant_one_witness :
  let samples : seq (rat * rat) := [:: (0, 3); (1, 1)] in
  let fn : RationalFunction rat := (3%:P, Poly [:: 1; 2]) in
  let c := coefficients (unzip1 samples) (unzip2 samples) 0 `|Nbase 0 1| in
  [/\ (0 < 1)%N, fit samples 0 1 = Ok fn
    & [/\ fn.2 = Poly (1 :: drop 1 (seq_of_rV c)),
          size (drop 1 (seq_of_rV c)) = 1%N,
          fn.2`_0 = 1,
          forall b, (0 < b <= 1)%N -> fn.2`_b = (seq_of_rV c)`_(0 + b)
        & normal_matrix (unzip1 samples) (unzip2 samples) 0 `|Nbase 0 1| *m c^T
          = (phi (unzip1 samples) (unzip2 samples) 0 `|Nbase 0 1|)^T
            *m (rV_of_seq (size (unzip1 samples)) (unzip2 samples))^T]].
Proof.
split; [by [] | exact: fit_table_lead2 |].
exact: (@fit_denominator_constant_one rat [:: (0, 3); (1, 1)] 0 1
          (3%:P, Poly [:: 1; 2]) isT fit_table_lead2).
Defined.

(** Claim C1, counterexample: at [A = 0], [B = 1] the table [(0,3), (1,1)]
    is fitted by [3/(1+2x)].  The denominator's coefficients are [1, 2],
    lowest degree first: the leading one is two, not one.  The right-hand
    side of the system is not the one of the target [y_i*x_i^B] either. *)
Lemma fit_leading_coefficient_counterexample :
  let samples : seq (rat * rat) := [:: (0, 3); (1, 1)] in
  let xi := unzip1 samples in
  let fxi := unzip2 samples in
  exists fn : RationalFunction rat,
    [/\ fit samples 0 1 = Ok fn,
        polyseq fn.2 = [:: 1; 2],
        lead_coef fn.2 != 1
      & source xi fxi 0 2 <> spec_target 2 xi fxi 1 *m phi xi fxi 0 2].
Proof.
exists (3%:P, Poly [:: 1; 2]); split; first exact: fit_table_lead2.
- by rewrite (@PolyK _ 0).
- by rewrite lead_coefE (@PolyK _ 0).
move/rowP/(_ ord0); rewrite !mxE !big_ord_recl !big_ord0 !mxE /=.
by move/eqP.
Qed.

(** Claim C10, witness: the same table. *)
Lemma fit_denominator_at_zero_witness :
  let fn : RationalFunction rat := (3%:P, Poly [:: 1; 2]) in
  [/\ (0 : int) <= 0, (0 : int) <= 1, fit [:: (0, 3); (1, 1)] 0 1 = Ok fn
    & fn.2`_0 = 1 /\ fn.2.[0] = 1].
Proof.
split; [by [] | by [] | exact: fit_table_lead2 |].
exact: (@fit_denominator_at_zero rat [:: (0, 3); (1, 1)] 0 1
          (3%:P, Poly [:: 1; 2]) isT isT fit_table_lead2).
Defined.

(** ** The design matrix and the solve *)

Section DesignMatrix.

Variable F : fieldType.


End DesignMatrix.

(** ** Exact data *)

Section ExactData.

Variable F : fieldType.

Lemma np_div_finite (a b y : F) : b != 0 -> y * b = a -> np_div a b = Finite y.
Proof. by move=> nz_b <-; rewrite /np_div (negPf nz_b) mulfK. Qed.

(** On exact data [evaluate] gives the ordinates back. *)
Lemma evaluate_exact_data (samples : seq (F * F)) (N D : {poly F}) :
  lies_on samples N D ->
  forall p, p \in samples -> evaluate (N, D) p.1 = Ok (Finite p.2).
Proof.
move=> onND p /onND[nzD yE]; rewrite /evaluate /rational_value /=.
by rewrite (@np_div_finite _ _ p.2) // yE divfK.
Qed.

Lemma lies_on_cross (samples : seq (F * F)) (N D : {poly F}) :
  lies_on samples N D ->
  forall p, p \in samples -> p.2 * D.[p.1] = N.[p.1].
Proof. by move=> onND p /onND[nzD ->]; rewrite divfK. Qed.

(** Claim C8, as amended.  On a table of exactly [A+B+1] points, whenever
    [fit] returns, the fitted [N/D] satisfies [N(x_i) = y_i * D(x_i)] at
    every tabulated point, and [evaluate] gives back [y_i] at every
    tabulated [x_i] where the fitted denominator does not vanish. *)
Theorem fit_interpolates (samples : seq (F * F)) (A B : nat) fn :
  size samples = (A + B + 1)%N ->
  fit samples A%:Z B%:Z = Ok fn ->
  forall p, p \in samples ->
    fn.1.[p.1] = p.2 * fn.2.[p.1] /\
    (fn.2.[p.1] != 0 -> evaluate fn p.1 = Ok (Finite p.2)).
Proof.
move=> eq_n /fit_Ok /= [uM ->] p p_in /=.
have eq_nm : size (unzip1 samples) = `|Nbase A%:Z B%:Z|%N.
  by rewrite size_map eq_n abs_Nbase.
have /phi_exactP /(_ p p_in) /= cross := square_system eq_nm uM.
split=> [|nzD]; first by rewrite -cross.
by rewrite /evaluate /rational_value /= (np_div_finite nzD cross).
Qed.

End ExactData.

Section ExactRecovery.

Variable R : realFieldType.

(** Claim C2, as amended.  Let a table of [n >= A+B+1] points with distinct
    abscissae lie exactly on [N/D], in lowest terms, with [N] of degree at
    most [A], [D] of degree at most [B], one of the two degrees attained,
    and the constant coefficient of [D] normalised to one.  Then [fit]
    returns [N] and [D] themselves, and [evaluate] of the fitted function at
    every tabulated [x_i] gives back [y_i]. *)
Theorem fit_recovers_exact_data (samples : seq (R * R)) (A B : nat)
    (N D : {poly R}) :
  (A + B + 1 <= size samples)%N -> uniq (unzip1 samples) ->
  (size N <= A.+1)%N -> (size D <= B.+1)%N -> D`_0 = 1 ->
  coprimep N D -> (size N == A.+1) || (size D == B.+1) ->
  lies_on samples N D ->
  fit samples A%:Z B%:Z = Ok (N, D) /\
  forall p, p \in samples -> evaluate (N, D) p.1 = Ok (Finite p.2).
Proof.
move=> le_n uniq_x leN leD D0 coND degND onND.
split; last exact: evaluate_exact_data onND.
apply: fit_exact => //; first exact: lies_on_cross onND.
exact: (exact_data_regular uniq_x le_n leN leD D0 coND degND onND).
Qed.

End ExactRecovery.

Section ExactDataTables.

Local Notation Q := rat.

Lemma lies_on_table_lead2 :
  lies_on [:: (0, 3); (1, 1)] (3%:P : {poly Q}) (Poly [:: 1; 2]).
Proof.
by apply: forall_table2; rewrite hornerC horner_Poly /=; split; apply/eqP.
Qed.

(** Claim C2, witness: the table [(0,3), (1,1)] of [3/(1+2x)]. *)
Lemma fit_recovers_exact_data_witness :
  let samples : seq (Q * Q) := [:: (0, 3); (1, 1)] in
  let N : {poly Q} := 3%:P in
  let D : {poly Q} := Poly [:: 1; 2] in
  [/\ [/\ (0 + 1 + 1 <= size samples)%N, uniq (unzip1 samples),
          (size N <= 1)%N, (size D <= 2)%N & D`_0 = 1],
      coprimep N D, (size N == 1%N) || (size D == 2),
      lies_on samples N D
    & fit samples 0 1 = Ok (N, D) /\
      forall p, p \in samples -> evaluate (N, D) p.1 = Ok (Finite p.2)].
Proof.
pose N : {poly Q} := 3%:P; pose D : {poly Q} := Poly [:: 1; 2].
have leN : (size N <= 1)%N by apply: size_polyC_leq1.
have leD : (size D <= 2)%N by apply: size_Poly.
have D0 : D`_0 = 1 by rewrite coef_Poly.
have coND : coprimep N D.
  by rewrite /N -[3%:P]mulr1 mul_polyC coprimepZl ?coprime1p.
have degND : (size N == 1%N) || (size D == 2) by rewrite size_polyC.
split=> //; first exact: lies_on_table_lead2.
exact: (@fit_recovers_exact_data rat [:: (0, 3); (1, 1)] 0 1 N D
          isT isT leN leD D0 coND degND lies_on_table_lead2).
Defined.

(** Claim C2, counterexample.  The table [(0,-1), (2,1)] has [A+B+1 = 2]
    points drawn exactly from [1/(x-1)], a denominator of degree one and
    leading coefficient one; [fit] returns the coefficients of [-1/(1-x)],
    not the original ones.  The table [(0,1), (1,1), (2,1)] has
    [A+B+1 = 3] points drawn exactly from [1/1], of degrees at most
    [A = 1] and [B = 1] and of leading denominator coefficient one; on it
    [fit] raises. *)
Lemma fit_recovers_counterexample :
  let N1 : {poly Q} := 1 in
  let D1 : {poly Q} := Poly [:: -1; 1] in
  let N2 : {poly Q} := 1 in
  let D2 : {poly Q} := 1 in
  [/\ [/\ (0 + 1 + 1 <= size [:: (0, -1 : Q); (2, 1 : Q)])%N,
          (size N1 <= 0 + 1)%N, (size D1 <= 1 + 1)%N, lead_coef D1 = 1
        & lies_on [:: (0, -1); (2, 1)] N1 D1],
      exists fn, fit [:: (0, -1); (2, 1)] 0 1 = Ok fn /\ fn <> (N1, D1),
      [/\ (1 + 1 + 1 <= size [:: (0, 1 : Q); (1, 1 : Q); (2, 1 : Q)])%N,
          (size N2 <= 1 + 1)%N, (size D2 <= 1 + 1)%N, lead_coef D2 = 1
        & lies_on [:: (0, 1); (1, 1); (2, 1)] N2 D2]
    & fit [:: (0, 1); (1, 1); (2, 1)] 1 1 = Raise LinAlgError
        :> result (RationalFunction Q)].
Proof.
split.
- split=> //; first by rewrite size_poly1.
  + exact: size_Poly.
  + by rewrite lead_coefE (@PolyK _ 0).
  by apply: forall_table2; rewrite hornerC horner_Poly /=; split; apply/eqP.
- exists ((-1)%:P, Poly [:: 1; -1]); split; first exact: fit_table_monic.
  by case=> /(congr1 (fun q : {poly Q} => q`_0)); rewrite coefC coef1 => /eqP.
- split=> //; try by rewrite size_poly1.
    by rewrite lead_coef1.
  move=> p; rewrite !inE => /or3P[] /eqP->;
    by rewrite hornerC /=; split; apply/eqP.
- exact: fit_table_constant.
Qed.

(** Claim C8, witness: the two-point table [(0,3), (1,1)]. *)
Lemma fit_interpolates_witness :
  let samples : seq (Q * Q) := [:: (0, 3); (1, 1)] in
  let fn : RationalFunction Q := (3%:P, Poly [:: 1; 2]) in
  [/\ size samples = (0 + 1 + 1)%N, fit samples 0 1 = Ok fn
    & forall p, p \in samples ->
        fn.1.[p.1] = p.2 * fn.2.[p.1] /\
        (fn.2.[p.1] != 0 -> evaluate fn p.1 = Ok (Finite p.2))].
Proof.
split; [by [] | exact: fit_table_lead2 |].
exact: (@fit_interpolates Q [:: (0, 3); (1, 1)] 0 1 (3%:P, Poly [:: 1; 2])
          (erefl _) fit_table_lead2).
Defined.

(** Claim C8, counterexample.  The table [(1,1), (2,0)] has exactly
    [A+B+1 = 2] points and its system is regular: [fit] returns [0/(1-x)].
    At the tabulated [x = 1] the fitted function is [0/0], not [y = 1]. *)
Lemma fit_interpolates_counterexample :
  let samples : seq (Q * Q) := [:: (1, 1); (2, 0)] in
  exists fn : RationalFunction Q,
    [/\ size samples = (0 + 1 + 1)%N,
        fit samples 0 1 = Ok fn,
        (1, 1) \in samples,
        evaluate fn 1 = Ok NaN
      & evaluate fn 1 <> Ok (Finite 1)].
Proof.
exists (0, Poly [:: 1; -1]).
have evalE : evaluate (0, Poly [:: 1 : Q; -1]) 1 = Ok NaN.
  rewrite /evaluate /rational_value /np_div /= horner0 !horner_cons hornerC.
  by rewrite eqxx; congr (Ok _); case: eqP.
split=> //; first exact: fit_table_pole.
by rewrite evalE.
Qed.

End ExactDataTables.

(** ** Evaluation where the denominator vanishes *)

Section Evaluation.

Variable F : fieldType.

Lemma rational_value_pole (fn : RationalFunction F) (x : F) :
  fn.2.[x] = 0 ->
  rational_value fn x = if fn.1.[x] == 0 then NaN else Inf.
Proof. by move=> D0; rewrite /rational_value /np_div D0 eqxx. Qed.

(** Claim C4, as amended.  At a query point where the denominator is
    exactly zero [evaluate] raises nothing: it returns the value of the
    floating-point division, not-a-number when the numerator vanishes too
    and an infinity otherwise.  On a sequence of queries it returns the
    sequence of the values, of the same length, with that value at the
    position of such a point. *)
Theorem evaluate_zero_denominator (fn : RationalFunction F) (x : F) :
  fn.2.[x] = 0 ->
  let v := if fn.1.[x] == 0 then NaN else Inf in
  evaluate fn x = Ok v /\
  forall xx (k : nat), (k < size xx)%N -> xx`_k = x ->
    exists vs, [/\ evaluate_seq fn xx = Ok vs, size vs = size xx
                 & nth NaN vs k = v].
Proof.
move=> D0 /=; have valE := rational_value_pole D0.
split=> [|xx k ltk xk]; first by rewrite /evaluate valE.
exists [seq rational_value fn z | z <- xx]; split=> //; first exact: size_map.
by rewrite (nth_map 0) // xk valE.
Qed.

End Evaluation.

Section EvaluationTables.

Local Notation Q := rat.

Lemma denominator_pole : (Poly [:: 1 : Q; -1]).[1] = 0.
Proof. by rewrite horner_Poly /=; apply/eqP. Qed.

(** Claim C4, witness: [0/(1-x)] at [x = 1]. *)
Lemma evaluate_zero_denominator_witness :
  let fn : RationalFunction Q := (0, Poly [:: 1; -1]) in
  let v : np_float Q := if fn.1.[1] == 0 then NaN else Inf in
  fn.2.[1] = 0 /\
  (evaluate fn 1 = Ok v /\
   forall xx (k : nat), (k < size xx)%N -> xx`_k = 1 ->
     exists vs, [/\ evaluate_seq fn xx = Ok vs, size vs = size xx
                  & nth NaN vs k = v]).
Proof.
split; first exact: denominator_pole.
exact: (@evaluate_zero_denominator Q (0, Poly [:: 1; -1]) 1 denominator_pole).
Defined.

(** Claim C4, counterexample.  The function [0/(1-x)] fitted to the table
    [(1,1), (2,0)] has a denominator that is exactly zero at [x = 1];
    [evaluate] returns not-a-number there, and the function [3/(1+2x)]
    fitted to [(0,3), (1,1)] returns an infinity at [x = -1/2], alone and
    within a sequence of queries.  Nothing is raised. *)
Lemma evaluate_raises_counterexample :
  exists fn1 fn2 : RationalFunction Q,
    [/\ fit [:: (1, 1); (2, 0)] 0 1 = Ok fn1,
        fit [:: (0, 3); (1, 1)] 0 1 = Ok fn2,
        fn1.2.[1] = 0 /\ evaluate fn1 1 = Ok NaN,
        fn2.2.[- 2^-1] = 0 /\ evaluate fn2 (- 2^-1) = Ok Inf
      & evaluate_seq fn2 [:: 0; - 2^-1] = Ok [:: Finite 3; Inf]].
Proof.
exists (0, Poly [:: 1; -1]), (3%:P, Poly [:: 1; 2]).
have pole2 : (Poly [:: 1 : Q; 2]).[- 2^-1] = 0.
  by rewrite horner_Poly /=; apply/eqP.
split; [exact: fit_table_pole | exact: fit_table_lead2 | | |].
- split; first exact: denominator_pole.
  rewrite /evaluate (@rational_value_pole _ (0, Poly [:: 1; -1]) 1) /=.
    exact: denominator_pole.
  by rewrite horner0 eqxx.
- split=> //.
  rewrite /evaluate (@rational_value_pole _ (3%:P, Poly [:: 1; 2]) (- 2^-1)) /=.
    exact: pole2.
  by rewrite hornerC.
- have v0 : rational_value (3%:P, Poly [:: 1 : Q; 2]) 0 = Finite 3.
    rewrite /rational_value (@np_div_finite _ _ _ 3) //=.
      by rewrite !horner_cons hornerC; apply/eqP.
    by rewrite !horner_cons !hornerC; apply/eqP.
  have v1 : rational_value (3%:P, Poly [:: 1 : Q; 2]) (- 2^-1) = Inf.
    by rewrite rational_value_pole //= hornerC.
  by rewrite /evaluate_seq !map_cons v0 v1.
Qed.

End EvaluationTables.

(** ** The exceptions of the fit *)

Section Exceptions.

Variable F : fieldType.




End Exceptions.

Section ExceptionTables.

Local Notation Q := rat.





(** Claim C9.  On the table [(0,1), (1,2), (2,5), (3,10)] with [A = 2] and
    [B = 0], [fit] returns the numerator coefficients [1, 0, 1], lowest
    degree first, and the denominator [1]; [evaluate] of the fitted
    function at [x = 4] returns [17].  In exact arithmetic the values are
    these exactly, hence within every tolerance. *)
Theorem fit_parabola :
  let samples : seq (Q * Q) := [:: (0, 1); (1, 2); (2, 5); (3, 10)] in
  exists fn : RationalFunction Q,
    [/\ fit samples 2 0 = Ok fn,
        polyseq fn.1 = [:: 1; 0; 1],
        polyseq fn.2 = [:: 1]
      & evaluate fn 4 = Ok (Finite 17)].
Proof.
exists (Poly [:: 1; 0; 1], 1); split; first exact: fit_table_parabola.
- by rewrite (@PolyK _ 0).
- by rewrite polyseq1.
rewrite /evaluate /rational_value (@np_div_finite _ _ _ 17) //=.
  by rewrite hornerC.
by rewrite !horner_cons !hornerC; apply/eqP.
Qed.

End ExceptionTables.

(** * Further properties of the notebook's code *)

(** ** The matrices as sums over the table *)

Section TableSums.

Variable F : fieldType.

Implicit Types (xi fxi : seq F) (A : int) (m : nat) (samples : seq (F * F)).

Lemma normal_matrix_sum xi fxi A m (a b : 'I_m) :
  normal_matrix xi fxi A m a b =
    \sum_(0 <= i < size xi) phi_entry xi fxi A i a * phi_entry xi fxi A i b.
Proof.
rewrite /normal_matrix mxE big_mkord.
by apply: eq_bigr => i _; rewrite !mxE.
Qed.

Lemma source_sum xi fxi A m (a : 'I_m) :
  source xi fxi A m ord0 a =
    \sum_(0 <= i < size xi) fxi`_i * phi_entry xi fxi A i a.
Proof.
rewrite /source mxE big_mkord.
by apply: eq_bigr => i _; rewrite !mxE.
Qed.

(** A sum over the rows of the two columns is a sum over the table. *)
Lemma big_samples samples (G : F -> F -> F) :
  \sum_(0 <= i < size (unzip1 samples))
      G (unzip1 samples)`_i (unzip2 samples)`_i
  = \sum_(p <- samples) G p.1 p.2.
Proof.
rewrite size_map [RHS](big_nth (0, 0)) !big_nat.
by apply: eq_bigr => i /andP[_ lti]; rewrite !(nth_map (0, 0)).
Qed.

(** The entry of [phi] depends on the row of the table only. *)
Lemma phi_entry_row xi fxi A (i a : nat) :
  phi_entry xi fxi A i a = phi_entry [:: xi`_i] [:: fxi`_i] A 0 a.
Proof. by []. Qed.

Lemma normal_matrix_table samples A m (a b : 'I_m) :
  normal_matrix (unzip1 samples) (unzip2 samples) A m a b =
    \sum_(p <- samples)
       phi_entry [:: p.1] [:: p.2] A 0 a * phi_entry [:: p.1] [:: p.2] A 0 b.
Proof.
rewrite normal_matrix_sum.
exact: (big_samples samples (fun x y =>
          phi_entry [:: x] [:: y] A 0 a * phi_entry [:: x] [:: y] A 0 b)).
Qed.

Lemma source_table samples A m (a : 'I_m) :
  source (unzip1 samples) (unzip2 samples) A m ord0 a =
    \sum_(p <- samples) p.2 * phi_entry [:: p.1] [:: p.2] A 0 a.
Proof.
rewrite source_sum.
exact: (big_samples samples (fun x y => y * phi_entry [:: x] [:: y] A 0 a)).
Qed.

End TableSums.

(** ** The order and the grouping of the rows *)

Section RowOrder.

Variable F : fieldType.

Implicit Types (A B : int) (samples : seq (F * F)).

(** X1.  The rows of the table may come in any order: [fit] on a
    rearranged table gives the same result, be it a function or an
    exception. *)
Theorem fit_perm samples1 samples2 A B :
  perm_eq samples1 samples2 -> fit samples1 A B = fit samples2 A B.
Proof.
move=> perm12.
have eqM m : normal_matrix (unzip1 samples1) (unzip2 samples1) A m
           = normal_matrix (unzip1 samples2) (unzip2 samples2) A m.
  by apply/matrixP => a b; rewrite !normal_matrix_table; apply: perm_big.
have eqd m : source (unzip1 samples1) (unzip2 samples1) A m
           = source (unzip1 samples2) (unzip2 samples2) A m.
  by apply/rowP => a; rewrite !source_table; apply: perm_big.
by rewrite !fitE /coefficients eqM eqd.
Qed.

(** X2.  The normal matrix and the right-hand side of a table made of two
    parts are the sums of those of the parts: a table can be accumulated
    piece by piece. *)
Theorem normal_system_cat samples1 samples2 A (m : nat) :
  let samples := samples1 ++ samples2 in
  normal_matrix (unzip1 samples) (unzip2 samples) A m
    = normal_matrix (unzip1 samples1) (unzip2 samples1) A m
      + normal_matrix (unzip1 samples2) (unzip2 samples2) A m
  /\ source (unzip1 samples) (unzip2 samples) A m
    = source (unzip1 samples1) (unzip2 samples1) A m
      + source (unzip1 samples2) (unzip2 samples2) A m.
Proof.
move=> samples; split.
  by apply/matrixP => a b; rewrite [RHS]mxE !normal_matrix_table big_cat.
by apply/rowP => a; rewrite [RHS]mxE !source_table big_cat.
Qed.

End RowOrder.

(** X1, witness: the two rows of [(0,3), (1,1)] exchanged. *)
Lemma fit_perm_witness :
  let s1 : seq (rat * rat) := [:: (0, 3); (1, 1)] in
  let s2 : seq (rat * rat) := [:: (1, 1); (0, 3)] in
  perm_eq s1 s2 /\ fit s1 0 1 = fit s2 0 1.
Proof.
split; first by [].
exact: (@fit_perm rat [:: (0, 3); (1, 1)] [:: (1, 1); (0, 3)] 0 1 isT).
Defined.

(** ** Malformed and degenerate inputs *)

Section Malformed.

Variable F : fieldType.

Implicit Types (xi fxi : seq F) (A B : int) (samples : seq (F * F)).

(** Some turn of the inner loop takes the [else] branch exactly when there
    is a basis function at all and [B] is positive. *)
Lemma has_else_branch A B :
  has (fun a : nat => A < a%:Z) (range (Nbase A B))
    = (0 < Nbase A B) && (0 < B).
Proof.
rewrite /Nbase; case eq_n: (A + B + 1) => [n|n] //=.
apply/hasP/andP => [[a] | [lt0n lt0B]].
  rewrite mem_iota add0n /= => lt_an ltAa; split.
    by rewrite ltz_nat (leq_ltn_trans _ lt_an).
  have : a%:Z + 1 <= A + B + 1 by rewrite eq_n -PoszD addn1 lez_nat.
  rewrite lerD2r => leaAB.
  by rewrite -(ltrD2l A) addr0 (lt_le_trans ltAa).
exists n.-1; first by rewrite mem_iota add0n /= prednK.
have -> : n.-1%:Z = A + B.
  by apply: (addIr 1); rewrite eq_n -PoszD addn1 prednK.
by rewrite ltrDl.
Qed.

(** X3.  Columns of different lengths never reach the solve: when [fxi] is
    the shorter one and the loop reads it (there is a denominator column),
    [fxi[i]] raises [IndexError]; in every other case [np.zeros] or [np.dot]
    raises [ValueError]. *)
Theorem find_rational_mismatch_error xi fxi A B :
  size fxi != size xi ->
  find_rational xi fxi A B =
    Raise (if [&& 0 < Nbase A B, 0 < B & (size fxi < size xi)%N]
           then IndexError else ValueError).
Proof.
move=> neq_sz; rewrite /find_rational has_else_branch (negPf neq_sz).
case: ltgtP => [lt0 | gt0 | eq0] /=; rewrite ?andbF //.
by rewrite andbC; case: ifP.
Qed.

(** X4.  With no basis function at all ([A+B+1 = 0], as for [A = -1] and
    [B = 0]) every matrix is empty and nothing is solved: on columns of
    equal lengths the result is the function [0/1], whatever the table. *)
Theorem find_rational_empty_basis xi fxi A B :
  Nbase A B = 0 -> size fxi = size xi ->
  find_rational xi fxi A B = Ok (0, 1).
Proof.
move=> Nbase0 eq_sz; rewrite find_rationalE // Nbase0 ltxx /=.
rewrite unitmxE det_mx00 unitr1 /=.
set c := seq_of_rV _; have -> : c = [::].
  by apply: size0nil; rewrite size_seq_of_rV.
by rewrite /slice_to /slice_from /= cons_poly_def mul0r add0r.
Qed.

(** X5.  The degrees of what [fit] returns, at degrees [A >= 0] and
    [B >= 0]: the numerator has degree at most [A], the denominator has
    degree at most [B] and is not the zero polynomial. *)
Theorem fit_degrees samples (A B : nat) fn :
  fit samples A%:Z B%:Z = Ok fn ->
  [/\ (size fn.1 <= A.+1)%N, (size fn.2 <= B.+1)%N & fn.2 != 0].
Proof.
move=> /fit_Ok[_ ->]; split.
- apply: leq_trans (size_Poly _) _; rewrite size_take.
  by case: ifP => // /negbT; rewrite -leqNgt => /leq_trans; apply.
- apply: leq_trans (size_Poly _) _.
  by rewrite /= size_drop size_seq_of_rV addn1 subSS addKn.
- apply/eqP => /(congr1 (fun q : {poly F} => q`_0)).
  by rewrite coef_Poly coef0 /= => /eqP; rewrite oner_eq0.
Qed.

(** X6.  A table whose ordinates are all zero cannot be fitted with a
    denominator of positive degree: the denominator columns of the design
    matrix vanish and the solve raises. *)
Theorem fit_zero_ordinates samples (A B : nat) :
  (0 < B)%N -> (forall p, p \in samples -> p.2 = 0) ->
  fit samples A%:Z B%:Z = Raise LinAlgError.
Proof.
move=> lt0B y0; apply: (@fit_singular_kernel _ _ _ _ 0 1).
- by rewrite size_poly0.
- by rewrite size_poly1.
- by rewrite oner_eq0 orbT.
- by move=> p /y0 ->; rewrite horner0 mul0r.
Qed.

End Malformed.

(** ** Repeated rows *)

Section RepeatedRows.

Variable F : fieldType.




End RepeatedRows.

(** ** Least squares *)

Section ResidualSum.

Variable F : fieldType.

Variables (samples : seq (F * F)) (A B : nat).

Let xi := unzip1 samples.
Let fxi := unzip2 samples.
Let m := `|Nbase A%:Z B%:Z|%N.
Let Phi := phi xi fxi A%:Z m.
Let y : 'cV[F]_(size xi) := (rV_of_seq (size xi) fxi)^T.



End ResidualSum.

Section LeastSquares.

Variable R : realFieldType.



End LeastSquares.

(** ** The normal equations on the table *)

Section Orthogonality.

Variable F : fieldType.



End Orthogonality.

(** ** When the fit returns *)

Section Returns.

Variable R : realFieldType.



(** X12.  Interpolation: on a table of exactly [A+1] rows with distinct
    abscissae a polynomial fit returns, and the polynomial it returns takes
    the tabulated value at every tabulated abscissa. *)
Theorem polynomial_fit_interpolates (samples : seq (R * R)) (A : nat) :
  uniq (unzip1 samples) -> size samples = A.+1 ->
  exists N : {poly R},
    [/\ fit samples A%:Z 0 = Ok (N, 1), (size N <= A.+1)%N
      & forall p, p \in samples ->
          N.[p.1] = p.2 /\ evaluate (N, 1) p.1 = Ok (Finite p.2)].
Proof.
move=> uniq_x eq_n.
have uM := polynomial_fit_regular uniq_x (_ : (A < size samples)%N).
rewrite eq_n ltnSn in uM; have {}uM := uM isT.
set c := coefficients (unzip1 samples) (unzip2 samples) A%:Z `|Nbase A%:Z 0|.
have dropE : drop A.+1 (seq_of_rV c) = [::].
  by rewrite drop_oversize // size_seq_of_rV abs_Nbase addn0 addn1.
have D1 : Poly (1 :: drop A.+1 (seq_of_rV c)) = 1.
  by rewrite dropE /= cons_poly_def mul0r add0r.
exists (Poly (take A.+1 (seq_of_rV c))); split.
- by rewrite fit_nat /= uM /= -/c dropE /= cons_poly_def mul0r add0r.
- apply: leq_trans (size_Poly _) _; rewrite size_take.
  by case: ifP => // /negbT; rewrite -leqNgt.
move=> p p_in.
have eq_nm : size (unzip1 samples) = `|Nbase A%:Z 0|%N.
  by rewrite size_map eq_n abs_Nbase addn0 addn1.
have /phi_exactP/(_ p p_in) := square_system eq_nm uM.
rewrite -/c D1 hornerC mulr1 => cross; split=> //.
rewrite /evaluate /rational_value /= (@np_div_finite _ _ _ p.2) //.
  by rewrite hornerC oner_eq0.
by rewrite hornerC mulr1.
Qed.

End Returns.

(** ** A change of unit of the ordinates *)

Section ScaleOrdinates.

Variable F : fieldType.

Variables (samples : seq (F * F)) (A B : nat) (k : F).

Hypothesis nz_k : k != 0.

Let xi := unzip1 samples.
Let fxi := unzip2 samples.
Let m := `|Nbase A%:Z B%:Z|%N.










End ScaleOrdinates.

(** ** Rejection sampling *)

Section Rejection.

Variable R : realFieldType.

Implicit Types (c x r u : R) (rng : rng_state R).

Lemma acceptE x r : 1 + x != 0 -> accept x r = (r < 4 * x / (1 + x) ^+ 2).
Proof. by move=> nz; rewrite /accept /np_div sqrf_eq0 (negPf nz). Qed.

Lemma accept_pole x r : 1 + x = 0 -> accept x r = false.
Proof.
by move=> eq0; rewrite /accept /np_div eq0 expr0n eqxx; case: ifP.
Qed.

(** [(1+x)^2 = 4x + (1-x)^2] *)
Lemma envelope_square x : (1 + x) ^+ 2 = 4 * x + (1 - x) ^+ 2.
Proof.
apply/eqP; rewrite -subr_eq subr_sqr opprB.
have -> : 1 + x + (x - 1) = 2 * x.
  by rewrite addrCA [1 + x - 1]addrAC subrr add0r -mulr2n mulr_natl.
have -> : 1 + x + (1 - x) = 2 by rewrite addrACA subrr addr0.
by rewrite mulrAC -natrM.
Qed.

Lemma envelope_gt0 x : 0 <= x -> 0 < (1 + x) ^+ 2.
Proof. by move=> ge0x; rewrite exprn_gt0 // ltr_wpDr. Qed.

Lemma envelope_le1 x : 0 <= x -> 4 * x / (1 + x) ^+ 2 <= 1.
Proof.
move=> ge0x; rewrite ler_pdivrMr ?envelope_gt0 // mul1r envelope_square.
by rewrite lerDl sqr_ge0.
Qed.

(** X14.  The test of the rejection loop, [r < 4x/(1+x)^2], uses a profile
    normalised to unity at its peak: for [x >= 0] no draw [r >= 1] passes
    it, and [x = 1] is the one point where every draw [r < 1] does. *)
Theorem accept_unity_at_peak x :
  0 <= x ->
  (forall r, accept x r -> r < 1) /\
  ((forall r, r < 1 -> accept x r) <-> x = 1).
Proof.
move=> ge0x; have nz : 1 + x != 0 by rewrite gt_eqF // ltr_wpDr.
have gt0 := envelope_gt0 ge0x.
split=> [r | ].
  by rewrite acceptE // => /lt_le_trans; apply; apply: envelope_le1.
split=> [all_r | -> r lt1]; last first.
  have nz2 : (1 + 1 : R) != 0 by rewrite gt_eqF // ltr_wpDr.
  rewrite acceptE // envelope_square subrr expr0n addr0 divff //.
  by rewrite mulr1 pnatr_eq0.
have := envelope_le1 ge0x; rewrite le_eqVlt => /orP[/eqP eq1 | lt1]; last first.
  by have := all_r _ lt1; rewrite acceptE // ltxx.
have /eqP : (1 - x) ^+ 2 = 0.
  apply: (addrI (4 * x)); rewrite -envelope_square addr0.
  by rewrite -[LHS]mul1r -[X in X * _]eq1 divfK // gt_eqF.
by rewrite sqrf_eq0 subr_eq0 => /eqP.
Qed.

Section Loop.

Variable c : R.

(** Induction over the turns of the loop: two draws at a time. *)
Lemma turns_ind (P : rng_state R -> Prop) :
  P [::] -> (forall u, P [:: u]) ->
  (forall u r rng, P rng -> P (u :: r :: rng)) ->
  forall rng, P rng.
Proof.
move=> P0 P1 P2 rng; have [n] := ubnP (size rng).
elim: n rng => // n IH [|u [|r rng]] //= lt_n.
by apply/P2/IH; rewrite -ltnS ltnW.
Qed.

(** X15.  [nfw] returns at the first turn whose draws pass the test, and
    only then: it returns the [x] of that turn divided by [c] and leaves the
    generator just after the two draws of that turn.  With no such turn
    among the recorded draws the loop is still running. *)
Theorem nfw_first_accepted rng v rng' :
  nfw c rng = Some (v, rng') <->
  exists k,
    [/\ (k.*2.+1 < size rng)%N,
        forall j, (j < k)%N -> ~~ accept (rng`_j.*2 * c) rng`_j.*2.+1,
        accept (rng`_k.*2 * c) rng`_k.*2.+1,
        v = np_div (rng`_k.*2 * c) c
      & rng' = drop k.*2.+2 rng].
Proof.
elim/turns_ind: rng => [| u | u r rng IH] /=.
- by split=> // -[k []].
- by split=> // -[k []].
case: ifPn => [acc | rej].
  split=> [[<- <-] | [[|k] [_ first_k _ -> ->]]].
  - by exists 0%N; split; rewrite ?drop0.
  - by rewrite /= drop0.
  - by have := first_k 0%N isT; rewrite /= acc.
split=> [/IH[k [lt_k first_k acc_k -> ->]]
       | [[|k] [lt_k first_k acc_k eq_v eq_r]]].
- exists k.+1; rewrite doubleS; split=> //.
  by case=> [_|j] //; rewrite ltnS doubleS => /first_k.
- by move: acc_k; rewrite /= (negPf rej).
- move: lt_k first_k acc_k eq_v eq_r; rewrite doubleS /=.
  move=> lt_k first_k acc_k eq_v eq_r.
  apply/IH; exists k; split=> // j lt_jk.
  by have := first_k j.+1 lt_jk; rewrite doubleS.
Qed.




(** X17.  For a concentration that is zero or negative the test never
    passes on draws of [[0, 1)]: whatever the generator hands out, the loop
    does not return. *)
Theorem nfw_nonpositive rng :
  c <= 0 -> uniform_draws rng -> nfw c rng = None.
Proof.
move=> le0c; elim/turns_ind: rng => [| u | u r rng IH] //=.
case/and3P=> /andP[ge0u _] /andP[ge0r _] /IH ->.
have le0x : u * c <= 0 by rewrite mulr_ge0_le0.
have [/eqP/accept_pole-> // | nz] := boolP (1 + u * c == 0).
rewrite acceptE // ltNge (le_trans _ ge0r) //.
rewrite mulr_le0_ge0 ?invr_ge0 ?sqr_ge0 //.
by rewrite mulr_ge0_le0 // ler0n.
Qed.


End Loop.

End Rejection.

(** ** Instances over the rationals *)

Section Instances.

Local Notation Q := rat.

(** X3, witness: an ordinate column one entry short, with a denominator
    column to fill. *)
Lemma find_rational_mismatch_error_witness :
  let xi : seq Q := [:: 0; 1] in
  let fxi : seq Q := [:: 1] in
  size fxi != size xi /\
  find_rational xi fxi 0 1 =
    Raise (if [&& 0 < Nbase 0 1, (0 : int) < 1 & (size fxi < size xi)%N]
           then IndexError else ValueError).
Proof.
split; first by [].
exact: (@find_rational_mismatch_error Q [:: 0; 1] [:: 1] 0 1 isT).
Defined.

(** X4, witness: [A = -1], [B = 0] on a table of two rows. *)
Lemma find_rational_empty_basis_witness :
  let xi : seq Q := [:: 0; 1] in
  let fxi : seq Q := [:: 1; 2] in
  [/\ Nbase (-1) 0 = 0, size fxi = size xi
    & find_rational xi fxi (-1) 0 = Ok (0, 1)].
Proof.
split=> //.
exact: (@find_rational_empty_basis Q [:: 0; 1] [:: 1; 2] (-1) 0
          (erefl _) (erefl _)).
Defined.

(** X5, witness: the table [(0,3), (1,1)] at [A = 0], [B = 1]. *)
Lemma fit_degrees_witness :
  let fn : RationalFunction Q := (3%:P, Poly [:: 1; 2]) in
  fit [:: (0, 3); (1, 1)] 0 1 = Ok fn /\
  [/\ (size fn.1 <= 1)%N, (size fn.2 <= 2)%N & fn.2 != 0].
Proof.
split; first exact: fit_table_lead2.
exact: (@fit_degrees Q [:: (0, 3); (1, 1)] 0 1 _ fit_table_lead2).
Defined.

Lemma zero_ordinates_table (p : Q * Q) :
  p \in [:: (0 : Q, 0 : Q); (1, 0)] -> p.2 = 0.
Proof. by rewrite !inE => /orP[] /eqP->. Qed.

(** X6, witness: the table [(0,0), (1,0)] at [A = 0], [B = 1]. *)
Lemma fit_zero_ordinates_witness :
  let samples : seq (Q * Q) := [:: (0, 0); (1, 0)] in
  [/\ (0 < 1)%N, forall p, p \in samples -> p.2 = 0
    & fit samples 0 1 = Raise LinAlgError].
Proof.
split=> //; first exact: zero_ordinates_table.
exact: (@fit_zero_ordinates Q [:: (0, 0); (1, 0)] 0 1 isT
          zero_ordinates_table).
Defined.




(** X12, witness: three points of [x^2+1] fitted by a quadratic. *)
Lemma polynomial_fit_interpolates_witness :
  let samples : seq (Q * Q) := [:: (0, 1); (1, 2); (2, 5)] in
  [/\ uniq (unzip1 samples), size samples = 3%N
    & exists N : {poly Q},
        [/\ fit samples 2 0 = Ok (N, 1), (size N <= 3)%N
          & forall p, p \in samples ->
              N.[p.1] = p.2 /\ evaluate (N, 1) p.1 = Ok (Finite p.2)]].
Proof.
split=> //.
exact: (@polynomial_fit_interpolates rat [:: (0, 1); (1, 2); (2, 5)] 2
          isT (erefl _)).
Defined.


(** X14, witness: the peak itself. *)
Lemma accept_unity_at_peak_witness :
  (0 : Q) <= 1 /\
  ((forall r : Q, accept 1 r -> r < 1) /\
   ((forall r : Q, r < 1 -> accept 1 r) <-> (1 : Q) = 1)).
Proof.
split; first by [].
exact: (@accept_unity_at_peak rat 1 isT).
Defined.

Lemma half_gt0 : 0 < (2^-1 : Q).
Proof. by rewrite invr_gt0 ltr0n. Qed.

Lemma half_lt1 : (2^-1 : Q) < 1.
Proof. by rewrite invf_lt1 ?ltr1n ?ltr0n. Qed.

Lemma uniform_half : uniform_draws [:: 2^-1 : Q; 0].
Proof.
rewrite /uniform_draws /all (ltW half_gt0) half_lt1 lexx ltr01.
exact: isT.
Qed.




(** X17, witness: concentration zero. *)
Lemma nfw_nonpositive_witness :
  let rng : rng_state Q := [:: 2^-1; 0] in
  [/\ (0 : Q) <= 0, uniform_draws rng & nfw 0 rng = None].
Proof.
split; [exact: lexx | exact: uniform_half |].
exact: (@nfw_nonpositive rat 0 [:: 2^-1; 0] (lexx 0) uniform_half).
Defined.

End Instances.
